(** * cluster.py: clustering lines of text by n-gram features

    A shallow embedding of [cluster.py].  Python 2 byte strings are
    [string]s, Python integers are [Z] (or [nat] where the source cannot
    go below zero), the [set] of n-grams is a [gset string] and the
    [defaultdict(list)] of clusters is a [gmap Z (list string)].

    Two things the program relies on are not written in it and are taken
    as parameters: the order in which a hash container hands out its
    elements ([HashOrder]) and the three scikit-learn routines
    ([Library]). *)

From Stdlib Require Import ZArith QArith.QArith_base.
From stdpp Require Import gmap strings list fin_maps pretty sorting.

Open Scope Z_scope.
Open Scope nat_scope.

(** ** Default values *)

Definition N : Z := 2.               (* Size of NGRAMs *)
Definition N_COMPONENTS : nat := 50. (* PCA components *)
Definition EPSILON : Q := 54 # 10.   (* DBSCAN epsilon *)
Definition MIN_SAMPLES : nat := 3.   (* DBSCAN min samples *)

(** ** Python primitives used by the program *)

(** [len(s)]. *)
Definition len (s : string) : Z := Z.of_nat (String.length s).

(** [xrange(n)]: empty when [n] is zero or negative. *)
Definition xrange (n : Z) : list nat := seq 0 (Z.to_nat n).

(** [s[i:j]] for [0 <= i]: the characters at positions [i .. j-1] that
    exist; empty when [j <= i]. *)
Definition slice (s : string) (i : nat) (j : Z) : string :=
  String.substring i (Z.to_nat (j - Z.of_nat i)) s.

(** [s.startswith(sub)]. *)
Fixpoint startswith (sub s : string) : bool :=
  match sub, s with
  | EmptyString, _ => true
  | String a sub', String b s' => if decide (a = b) then startswith sub' s' else false
  | String _ _, EmptyString => false
  end.

(** [s.count(sub)]: scan from the left; a match at the current position
    is counted and the scan resumes just behind it, so matches never
    overlap ([skip] is the number of characters still to step over; for
    the empty [sub] every position matches, the one at the end too). *)
Fixpoint count_from (skip : nat) (s sub : string) : nat :=
  match skip with
  | S k =>
      match s with
      | EmptyString => 0
      | String _ s' => count_from k s' sub
      end
  | O =>
      if startswith sub s then
        S (match s with
           | EmptyString => 0
           | String _ s' => count_from (String.length sub - 1) s' sub
           end)
      else
        match s with
        | EmptyString => 0
        | String _ s' => count_from 0 s' sub
        end
  end.

Definition count (s sub : string) : nat := count_from 0 s sub.

(** The characters of [s] from position [n] on: [s[n:]]. *)
Fixpoint drop_str (n : nat) (s : string) : string :=
  match n, s with
  | O, _ => s
  | S n', String _ s' => drop_str n' s'
  | S _, EmptyString => EmptyString
  end.

(** ** Iteration order of hash containers

    [list(ngrams)] and [clustered.iteritems()] enumerate a hash table;
    the order is whatever the interpreter's hashing gives.  All that is
    known is that every element comes out once. *)
Record HashOrder := {
  set_list : gset string → list string;
  set_list_perm : ∀ s, set_list s ≡ₚ elements s;
  dict_items : gmap Z (list string) → list (Z * list string);
  dict_items_perm : ∀ m, dict_items m ≡ₚ map_to_list m
}.

(** The order stdpp's own enumeration gives. *)
Definition stdpp_order : HashOrder :=
  {| set_list := elements;
     set_list_perm := λ _, reflexivity _;
     dict_items := map_to_list;
     dict_items_perm := λ _, reflexivity _ |}.

(** The same enumeration read backwards. *)
Definition reversed_order : HashOrder :=
  {| set_list := λ s, reverse (elements s);
     set_list_perm := λ s, reverse_Permutation (elements s);
     dict_items := λ m, reverse (map_to_list m);
     dict_items_perm := λ m, reverse_Permutation (map_to_list m) |}.

(** ** [build_ngrams] *)

(** The inner loop: [for i in xrange(len(name)-N+1): ngrams.add(name[i:i+N])]. *)
Definition add_ngrams (ngrams : gset string) (name : string) : gset string :=
  foldl (λ acc i, acc ∪ {[ slice name i (Z.of_nat i + N) ]})
        ngrams (xrange (len name - N + 1)).

(** The set held in [ngrams] after the outer loop. *)
Definition ngram_set (names : list string) : gset string :=
  foldl add_ngrams ∅ names.

Definition build_ngrams (H : HashOrder) (names : list string) : list string :=
  set_list H (ngram_set names).

(** ** The count matrix of [build_features]

    [X = A(map(build, names))], before it is normalized.  The cells are
    [float(name.count(ngram))]: whole numbers, kept here as [nat]. *)
Definition build (ngrams : list string) (name : string) : list nat :=
  (λ ngram, count name ngram) <$> ngrams.

Definition feature_matrix (H : HashOrder) (names : list string) : list (list nat) :=
  let ngrams := build_ngrams H names in
  build ngrams <$> names.

(** ** The scikit-learn routines

    [StandardScaler().fit_transform], [PCA(n_components=..).fit_transform]
    and [DBSCAN(eps=.., min_samples=..).fit_predict] are not part of the
    program.  They work on floating-point arrays ([real]) and may raise
    ([exn]).  The laws are the shape contracts of their documentation: a
    transform returns one row per sample, [fit_predict] returns one label
    per sample and labels noise with [-1], clusters with [0, 1, ...]. *)
Record Library := {
  real : Type;
  exn : Type;
  scaler_fit_transform : list (list nat) → exn + list (list real);
  pca_fit_transform : nat → list (list real) → exn + list (list real);
  dbscan_fit_predict : Q → nat → list (list real) → exn + list Z;
  (* the library's test "Euclidean distance of two rows is at most eps" *)
  within : Q → list real → list real → bool;
  scaler_rows : ∀ X Y, scaler_fit_transform X = inr Y → length Y = length X;
  pca_rows : ∀ n X Y, pca_fit_transform n X = inr Y → length Y = length X;
  dbscan_rows : ∀ eps m X labels,
    dbscan_fit_predict eps m X = inr labels → length labels = length X;
  dbscan_labels : ∀ eps m X labels,
    dbscan_fit_predict eps m X = inr labels → Forall (λ l, -1 ≤ l)%Z labels
}.


(** Exceptions raised inside a call end the run; the program catches
    nothing. *)
#[global] Instance raise_bind {E} : MBind (sum E) := λ A B k r,
  match r with
  | inl e => inl e
  | inr a => k a
  end.

(** ** [build_features] *)

Definition build_features (L : Library) (H : HashOrder) (names : list string)
    : exn L + list (list (real L)) :=
  let X := feature_matrix H names in
  (* normalize and perform PCA *)
  X_n ← scaler_fit_transform L X;
  X_n ← pca_fit_transform L N_COMPONENTS X_n;
  inr X_n.

(** ** [clusternames] *)

(** [ordered[label].append(name)] on a [defaultdict(list)]: a missing
    key starts from the empty list. *)
Definition append_to {A} (ordered : gmap Z (list A)) (label : Z) (name : A)
    : gmap Z (list A) :=
  <[label := default [] (ordered !! label) ++ [name]]> ordered.

(** The loop over [izip(labels, names)], which stops with the shorter of
    the two. *)
Definition order_names {A} (labels : list Z) (names : list A) : gmap Z (list A) :=
  foldl (λ ordered ln, append_to ordered ln.1 ln.2) ∅ (zip labels names).

(** Lines 106-109: the labels DBSCAN gives to the rows. *)
Definition cluster_labels (L : Library) (H : HashOrder) (names : list string)
    : exn L + list Z :=
  X_n ← build_features L H names;
  (* set up and perform dbscan clustering *)
  dbscan_fit_predict L EPSILON MIN_SAMPLES X_n.

Definition clusternames (L : Library) (H : HashOrder) (names : list string)
    : exn L + gmap Z (list string) :=
  labels ← cluster_labels L H names;
  (* order names by cluster *)
  inr (order_names labels names).

(** ** [print_clusters] *)

(** What a call leaves behind: the lines written to standard output, and
    whether it returned or stopped on [contents[0]] of an empty list. *)
Inductive printed :=
  | Returned (stdout : list string)
  | IndexError (stdout : list string).

(** The lines of one group, [None] when [contents[0]] raises. *)
Definition print_group (cluster : Z) (contents : list string) : option (list string) :=
  header ← (if decide (cluster ≠ (-1)%Z)
            then (λ first, "[*] --- Cluster: " +:+ first +:+ " ---") <$> head contents
            else Some "[*] --- Outside any cluster ---");
  Some (header :: ((λ item, "[+] " +:+ item) <$> contents)).

Fixpoint print_groups (items : list (Z * list string)) (stdout : list string) : printed :=
  match items with
  | [] => Returned stdout
  | (cluster, contents) :: items' =>
      match print_group cluster contents with
      | Some lines => print_groups items' (stdout ++ lines)
      | None => IndexError stdout
      end
  end.

(** [len(clustered) - (1 if -1 in clustered else 0)]. *)
Definition n_clusters (clustered : gmap Z (list string)) : Z :=
  (Z.of_nat (size clustered) - (if decide ((-1)%Z ∈ dom clustered) then 1 else 0))%Z.

Definition print_clusters (H : HashOrder) (clustered : gmap Z (list string)) : printed :=
  match print_groups (dict_items H clustered) [] with
  | Returned stdout =>
      (* Print Number of clusters, ignoring noise if present. *)
      Returned (stdout ++ ["[*] Estimated number of clusters: " +:+ pretty (n_clusters clustered)])
  | IndexError stdout => IndexError stdout
  end.

(** ** Two small libraries to run the program with

    Executable stand-ins for the three routines, on whole numbers instead
    of floats: the "scaler" leaves the counts as they are, the "PCA" keeps
    the first coordinates, the "DBSCAN" puts every row that lies within
    [eps] of a core row into cluster 0.  With [validate] they refuse the
    inputs that current versions of scikit-learn refuse (no samples, no
    features, more components than samples or features); without it they
    take everything and keep as many components as there are. *)

Definition sq_dist (p q : list Z) : Z :=
  foldr Z.add 0%Z (zip_with (λ x y, (x - y) * (x - y))%Z p q).

Definition z_within (eps : Q) (p q : list Z) : bool :=
  Qle_bool (inject_Z (sq_dist p q)) (eps * eps).

Definition z_core (eps : Q) (m : nat) (X : list (list Z)) (p : list Z) : bool :=
  bool_decide (m ≤ length (filter (λ q, z_within eps p q = true) X)).

Definition z_dbscan (eps : Q) (m : nat) (X : list (list Z)) : string + list Z :=
  inr ((λ q, if existsb (λ p, z_core eps m X p && z_within eps p q) X
             then 0%Z else (-1)%Z) <$> X).

Definition z_scaler (validate : bool) (X : list (list nat)) : string + list (list Z) :=
  if validate && bool_decide (X = []) then
    inl "ValueError: Found array with 0 sample(s)"%string
  else if validate && existsb (λ row, bool_decide (row = [])) X then
    inl "ValueError: Found array with 0 feature(s)"%string
  else inr (map (map Z.of_nat) X).

Definition z_pca (validate : bool) (n : nat) (X : list (list Z)) : string + list (list Z) :=
  if validate && bool_decide (length X < n ∨ Exists (λ row, length row < n) X) then
    inl "ValueError: n_components must be between 0 and min(n_samples, n_features)"%string
  else inr (take n <$> X).

Program Definition stand_in (validate : bool) : Library :=
  {| real := Z;
     exn := string;
     scaler_fit_transform := z_scaler validate;
     pca_fit_transform := z_pca validate;
     dbscan_fit_predict := z_dbscan;
     within := z_within |}.
Next Obligation.
  intros validate X Y. unfold z_scaler. repeat case_match; try done.
  intros [= <-]. by rewrite length_map.
Qed.
Next Obligation.
  intros validate n X Y. unfold z_pca. case_match; [done|].
  intros [= <-]. by rewrite length_fmap.
Qed.
Next Obligation.
  intros _ eps m X labels [= <-]. by rewrite length_fmap.
Qed.
Next Obligation.
  intros _ eps m X labels [= <-].
  apply Forall_fmap, Forall_forall. intros q _. simpl. case_match; lia.
Qed.

(** ** The command line

    [names = list(name.strip() for name in fileinput.input())], then
    [clusternames] and [print_clusters].  The input is the list of lines
    read; an exception of the library is not caught. *)

(** The characters [str.strip()] removes: space, tab, newline, vertical
    tab, form feed and carriage return. *)
Definition is_space (a : Ascii.ascii) : bool :=
  bool_decide (Ascii.nat_of_ascii a ∈ [32; 9; 10; 11; 12; 13]).

Fixpoint lstrip (s : string) : string :=
  match s with
  | EmptyString => EmptyString
  | String a s' => if is_space a then lstrip s' else s
  end.

Fixpoint rstrip (s : string) : string :=
  match s with
  | EmptyString => EmptyString
  | String a s' =>
      match rstrip s' with
      | EmptyString => if is_space a then EmptyString else String a EmptyString
      | rest => String a rest
      end
  end.

Definition strip (s : string) : string := lstrip (rstrip s).

Definition main (L : Library) (H : HashOrder) (lines : list string) : exn L + printed :=
  let names := strip <$> lines in
  clustered ← clusternames L H names;
  inr (print_clusters H clustered).

(** * Notions the properties are stated with *)

(** [g] is a contiguous substring of length [n] of [name]. *)
Definition ngram_of (n : nat) (g name : string) : Prop :=
  ∃ pre post, name = pre +:+ g +:+ post ∧ String.length g = n.

(** Cell (i, j) of a matrix held as a list of rows. *)
Definition cell (X : list (list nat)) (i j : nat) : option nat :=
  row ← X !! i; row !! j.

(** The number of positions of [s] at which [sub] starts, overlapping
    occurrences included. *)
Fixpoint occurrences (sub s : string) : nat :=
  (if startswith sub s then 1 else 0) +
  match s with
  | EmptyString => 0
  | String _ s' => occurrences sub s'
  end.

(** [s] holds [k] occurrences of [sub] no two of which overlap: walking
    through [s], either step over a character or take an occurrence that
    starts here and go on behind it. *)
Inductive nonoverlapping (sub : string) : string → nat → Prop :=
  | nonoverlapping_stop s : nonoverlapping sub s 0
  | nonoverlapping_step a s k :
      nonoverlapping sub s k → nonoverlapping sub (String a s) k
  | nonoverlapping_take rest k :
      nonoverlapping sub rest k → nonoverlapping sub (sub +:+ rest) (S k).

(** The group of label [l]: the names that are paired with [l], in the
    order of the input. *)
Definition group_of {A} (labels : list Z) (names : list A) (l : Z) : list A :=
  (filter (λ ln, ln.1 = l) (zip labels names)).*2.

(** The number of distinct labels that are not negative. *)
Definition distinct_clusters (labels : list Z) : nat :=
  length (remove_dups (filter (λ l, (0 ≤ l)%Z) labels)).

(** The exception [e] was raised by one of the three library calls of
    the run on [names]. *)
Definition library_failure (L : Library) (H : HashOrder) (names : list string)
    (e : exn L) : Prop :=
  scaler_fit_transform L (feature_matrix H names) = inl e ∨
  (∃ X_n, scaler_fit_transform L (feature_matrix H names) = inr X_n ∧
          pca_fit_transform L N_COMPONENTS X_n = inl e) ∨
  (∃ X_n, build_features L H names = inr X_n ∧
          dbscan_fit_predict L EPSILON MIN_SAMPLES X_n = inl e).

(** The corpus of scenario 1. *)
Definition scenario1 : list string := ["aaa"; "aab"; "xyz"]%string.

(** A corpus with three similar names and one far from them. *)
Definition sample : list string := ["foo1"; "foo2"; "foo3"; "zzzzzzzzzzzz"]%string.

(** The groups the lenient stand-in finds in it. *)
Definition sample_groups : gmap Z (list string) :=
  {[ 0%Z := ["foo1"; "foo2"; "foo3"]%string; (-1)%Z := ["zzzzzzzzzzzz"]%string ]}.

(** Scenario 3: two lines that are empty after stripping. *)
Definition scenario3 : list string := [""; ""]%string.

(** The number of positions the inner loop of [build_ngrams] visits in
    [name]. *)
Definition windows (name : string) : nat := Z.to_nat (len name - N + 1).

(** What the loop of [print_clusters] writes for one group: the header
    and a line per member (the first member is read only from a list that
    has one). *)
Definition block (cluster : Z) (contents : list string) : list string :=
  (if decide (cluster ≠ (-1)%Z)
   then "[*] --- Cluster: " +:+ default "" (head contents) +:+ " ---"
   else "[*] --- Outside any cluster ---")
  :: ((λ item, "[+] " +:+ item) <$> contents).
Arguments block : simpl never.

(** The last line [print_clusters] writes. *)
Definition summary_line (clustered : gmap Z (list string)) : string :=
  "[*] Estimated number of clusters: " +:+ pretty (n_clusters clustered).

(** The lines of an output that list a member. *)
Definition member_lines (stdout : list string) : list string :=
  filter (λ line, startswith "[+] " line = true) stdout.

(** * Properties *)

(** ** Strings *)

Section strings.
Implicit Types s sub pre post g : string.

Lemma str_app_nil_l s : "" +:+ s = s.
Proof. reflexivity. Qed.

Lemma str_app_cons a s1 s2 : String a s1 +:+ s2 = String a (s1 +:+ s2).
Proof. reflexivity. Qed.

Lemma str_length_app s1 s2 :
  String.length (s1 +:+ s2) = String.length s1 + String.length s2.
Proof.
  induction s1 as [|a s1 IH]; [done|].
  rewrite str_app_cons. simpl. by rewrite IH.
Qed.

Lemma substring_0_app g post :
  String.substring 0 (String.length g) (g +:+ post) = g.
Proof.
  induction g as [|a g IH].
  - rewrite str_app_nil_l. by destruct post.
  - rewrite str_app_cons. simpl. by rewrite IH.
Qed.

Lemma substring_app pre g post :
  String.substring (String.length pre) (String.length g) (pre +:+ g +:+ post) = g.
Proof.
  induction pre as [|a pre IH].
  - rewrite str_app_nil_l. apply substring_0_app.
  - by rewrite str_app_cons.
Qed.

Lemma substring_0_split s n :
  n ≤ String.length s →
  ∃ post, s = String.substring 0 n s +:+ post ∧
          String.length (String.substring 0 n s) = n.
Proof.
  revert n. induction s as [|a s IH]; intros [|n] Hn; simpl in *; try lia.
  - by exists "".
  - by exists (String a s).
  - destruct (IH n) as (post & Hs & Hl); [lia|].
    exists post. rewrite str_app_cons, <-Hs. by rewrite Hl.
Qed.

Lemma substring_split s i n :
  i + n ≤ String.length s →
  ∃ pre post, s = pre +:+ String.substring i n s +:+ post ∧
              String.length pre = i ∧
              String.length (String.substring i n s) = n.
Proof.
  revert i. induction s as [|a s IH]; intros [|i] Hn; simpl in Hn.
  - destruct (substring_0_split "" n) as (post & Hs & Hl); [simpl; lia|].
    by exists "", post.
  - lia.
  - destruct (substring_0_split (String a s) n) as (post & Hs & Hl); [simpl; lia|].
    by exists "", post.
  - destruct (IH i) as (pre & post & Hs & Hp & Hl); [lia|].
    exists (String a pre), post. simpl. rewrite str_app_cons, <-Hs.
    by rewrite Hp.
Qed.
End strings.

(** ** The vocabulary *)

Section vocabulary.
Implicit Types (names : list string) (name g : string) (ngrams : gset string).

Lemma elem_of_xrange i n : i ∈ xrange n ↔ (Z.of_nat i < n)%Z.
Proof. unfold xrange. rewrite elem_of_seq. lia. Qed.

Lemma elem_of_foldl_add {A} (f : A → string) (l : list A) ngrams g :
  g ∈ foldl (λ acc i, acc ∪ {[ f i ]}) ngrams l ↔ g ∈ ngrams ∨ ∃ i, i ∈ l ∧ g = f i.
Proof.
  revert ngrams. induction l as [|x l IH]; intros ngrams; simpl.
  - set_solver.
  - rewrite IH. set_solver.
Qed.

Lemma elem_of_add_ngrams ngrams name g :
  g ∈ add_ngrams ngrams name ↔ g ∈ ngrams ∨ ngram_of (Z.to_nat N) g name.
Proof.
  unfold add_ngrams. rewrite elem_of_foldl_add.
  apply or_iff_compat_l. split.
  - intros (i & Hi & ->). apply elem_of_xrange in Hi. unfold len in Hi.
    unfold slice. replace (Z.of_nat i + N - Z.of_nat i)%Z with N by lia.
    destruct (substring_split name i (Z.to_nat N)) as (pre & post & Hs & _ & Hl).
    { unfold N in *. lia. }
    by exists pre, post.
  - intros (pre & post & -> & Hg).
    exists (String.length pre). split.
    + apply elem_of_xrange. unfold len. rewrite !str_length_app. lia.
    + unfold slice.
      replace (Z.of_nat (String.length pre) + N - Z.of_nat (String.length pre))%Z
        with N by lia.
      by rewrite <-Hg, substring_app.
Qed.

Lemma elem_of_foldl_add_ngrams names ngrams g :
  g ∈ foldl add_ngrams ngrams names ↔
  g ∈ ngrams ∨ ∃ name, name ∈ names ∧ ngram_of (Z.to_nat N) g name.
Proof.
  revert ngrams. induction names as [|name names IH]; intros ngrams; simpl.
  - set_solver.
  - rewrite IH, elem_of_add_ngrams. set_solver.
Qed.

Lemma elem_of_ngram_set names g :
  g ∈ ngram_set names ↔ ∃ name, name ∈ names ∧ ngram_of (Z.to_nat N) g name.
Proof. unfold ngram_set. rewrite elem_of_foldl_add_ngrams. set_solver. Qed.

Lemma add_ngrams_short ngrams name : (len name < N)%Z → add_ngrams ngrams name = ngrams.
Proof.
  intros Hlen. unfold add_ngrams, xrange.
  by replace (Z.to_nat (len name - N + 1)) with 0 by lia.
Qed.

Lemma elem_of_build_ngrams H names g :
  g ∈ build_ngrams H names ↔ g ∈ ngram_set names.
Proof. unfold build_ngrams. by rewrite (set_list_perm H), elem_of_elements. Qed.

Lemma NoDup_build_ngrams H names : NoDup (build_ngrams H names).
Proof. unfold build_ngrams. rewrite (set_list_perm H). apply NoDup_elements. Qed.

Lemma length_build_ngrams H names :
  length (build_ngrams H names) = size (ngram_set names).
Proof. unfold build_ngrams. by rewrite (set_list_perm H). Qed.
End vocabulary.

Lemma ngram_set_scenario1 : ngram_set scenario1 = {[ "aa"; "ab"; "xy"; "yz" ]}%string.
Proof. by vm_compute. Qed.

(** C6: [build_ngrams] returns, without duplicates, exactly the
    contiguous substrings of length [N] that occur at some position of
    some string of the corpus; a string shorter than [N] adds nothing to
    the set; and for the corpus ["aaa"; "aab"; "xyz"] the vocabulary is
    "aa", "ab", "xy", "yz" in whatever order the set is listed. *)
Theorem build_ngrams_spec (H : HashOrder) (names : list string) :
  NoDup (build_ngrams H names) ∧
  (∀ g, g ∈ build_ngrams H names ↔
        ∃ name, name ∈ names ∧ ngram_of (Z.to_nat N) g name) ∧
  (∀ ngrams name, (len name < N)%Z → add_ngrams ngrams name = ngrams) ∧
  build_ngrams H scenario1 ≡ₚ ["aa"; "ab"; "xy"; "yz"]%string.
Proof.
  split_and!.
  - apply NoDup_build_ngrams.
  - intros g. by rewrite elem_of_build_ngrams, elem_of_ngram_set.
  - apply add_ngrams_short.
  - unfold build_ngrams. rewrite (set_list_perm H), ngram_set_scenario1.
    apply NoDup_Permutation.
    + apply NoDup_elements.
    + by vm_compute; repeat constructor; set_solver.
    + intros g. rewrite elem_of_elements. set_solver.
Qed.

(** ** The count matrix *)

Section matrix.
Context (H : HashOrder).
Implicit Types (names : list string) (name g : string).

Lemma length_feature_matrix names :
  length (feature_matrix H names) = length names.
Proof. unfold feature_matrix. by rewrite length_fmap. Qed.

Lemma length_build ngrams name : length (build ngrams name) = length ngrams.
Proof. unfold build. by rewrite length_fmap. Qed.

Lemma feature_matrix_lookup names i name :
  names !! i = Some name →
  feature_matrix H names !! i = Some (build (build_ngrams H names) name).
Proof. intros Hi. unfold feature_matrix. by rewrite list_lookup_fmap, Hi. Qed.

Lemma cell_feature_matrix names i j name g :
  names !! i = Some name →
  build_ngrams H names !! j = Some g →
  cell (feature_matrix H names) i j = Some (count name g).
Proof.
  intros Hi Hj. unfold cell. rewrite (feature_matrix_lookup _ _ _ Hi). simpl.
  unfold build. by rewrite list_lookup_fmap, Hj.
Qed.
End matrix.

(** ** What [count] counts

    For a non-empty [sub], the scan of [count] finds as many occurrences
    as can be placed in [s] without overlap, and no selection of
    non-overlapping occurrences is larger. *)

Section counting.
Context (b : Ascii.ascii) (sub' : string).
Local Abbreviation sub := (String b sub').
Implicit Types (s rest : string) (a : Ascii.ascii).

Lemma count_nil : count "" sub = 0.
Proof. reflexivity. Qed.

Lemma count_from_drop k s : count_from k s sub = count (drop_str k s) sub.
Proof.
  revert s. induction k as [|k IH]; intros [|a s]; simpl; by try apply IH.
Qed.

Lemma count_cons a s :
  count (String a s) sub =
  if startswith sub (String a s)
  then S (count (drop_str (String.length sub') s) sub)
  else count s sub.
Proof.
  unfold count at 1. cbn [count_from]. cbn [String.length].
  replace (S (String.length sub') - 1) with (String.length sub') by lia.
  by rewrite count_from_drop.
Qed.

Lemma length_drop_str k s : String.length (drop_str k s) ≤ String.length s.
Proof.
  revert s. induction k as [|k IH]; intros [|a s]; simpl; try lia.
  specialize (IH s). lia.
Qed.

Lemma drop_str_drop_str i j s : drop_str i (drop_str j s) = drop_str (j + i) s.
Proof.
  revert s. induction j as [|j IH]; intros s; [done|].
  destruct s as [|a s]; simpl; [by destruct i | apply IH].
Qed.

Lemma drop_str_app pre rest : drop_str (String.length pre) (pre +:+ rest) = rest.
Proof. induction pre as [|a pre IH]; [done | by rewrite str_app_cons]. Qed.

Lemma startswith_app pre rest : startswith pre (pre +:+ rest) = true.
Proof.
  induction pre as [|a pre IH]; [done|].
  rewrite str_app_cons. simpl. by rewrite decide_True.
Qed.

Lemma startswith_split pre s :
  startswith pre s = true → s = pre +:+ drop_str (String.length pre) s.
Proof.
  revert s. induction pre as [|a pre IH]; intros s Hs; [done|].
  destruct s as [|c s]; [done|]. simpl in Hs.
  case_decide; [subst c | done].
  rewrite str_app_cons. simpl. by rewrite <-IH.
Qed.

(** Stepping over characters never gains an occurrence, provided that
    holds for one character on strings of at most [n] characters. *)
Lemma count_drop_le n :
  (∀ t a, String.length t ≤ n → count t sub ≤ count (String a t) sub) →
  ∀ i s, String.length s ≤ n → count (drop_str i s) sub ≤ count s sub.
Proof.
  intros Hcons. induction i as [|i IH]; intros [|a s] Hs; simpl in *; try done.
  etrans; [apply IH; lia | apply Hcons; lia].
Qed.

(** Skipping at most [length sub] characters loses at most one
    occurrence of the scan. *)
Lemma count_window n s j :
  String.length s ≤ n → j ≤ String.length sub →
  count s sub ≤ S (count (drop_str j s) sub).
Proof.
  revert s j. induction n as [|n IH]; intros s j Hs Hj.
  { destruct s; simpl in Hs; [|lia]. rewrite count_nil. lia. }
  destruct j as [|j]; [simpl; lia|].
  destruct s as [|a s]; [rewrite count_nil; lia|].
  simpl in Hs, Hj. rewrite count_cons. cbn [drop_str].
  destruct (startswith _ _).
  - apply le_n_S.
    replace (String.length sub') with (j + (String.length sub' - j)) by lia.
    rewrite <-drop_str_drop_str.
    apply (count_drop_le n).
    + intros t a' Ht. rewrite count_cons. destruct (startswith _ _); [|done].
      apply IH; simpl; lia.
    + pose proof (length_drop_str j s). lia.
  - apply IH; simpl; lia.
Qed.

Lemma count_le_cons a s : count s sub ≤ count (String a s) sub.
Proof.
  rewrite count_cons. destruct (startswith _ _); [|done].
  apply (count_window (String.length s)); simpl; lia.
Qed.

Lemma count_app_sub rest : count (sub +:+ rest) sub = S (count rest sub).
Proof.
  rewrite str_app_cons, count_cons, <-str_app_cons, startswith_app.
  by rewrite drop_str_app.
Qed.

Lemma nonoverlapping_le_count s k : nonoverlapping sub s k → k ≤ count s sub.
Proof.
  induction 1 as [s|a s k _ IH|rest k _ IH].
  - lia.
  - etrans; [exact IH | apply count_le_cons].
  - rewrite count_app_sub. lia.
Qed.

Lemma nonoverlapping_count s : nonoverlapping sub s (count s sub).
Proof.
  remember (String.length s) as n eqn:Hn.
  assert (String.length s ≤ n) as Hs by lia. clear Hn.
  revert s Hs. induction n as [|n IH]; intros [|a s] Hs; simpl in Hs;
    try lia; try (rewrite count_nil; constructor).
  rewrite count_cons. destruct (startswith _ _) eqn:Hm.
  - rewrite (startswith_split _ _ Hm) at 1. apply nonoverlapping_take.
    cbn [String.length drop_str]. apply IH.
    pose proof (length_drop_str (String.length sub') s). lia.
  - apply nonoverlapping_step, IH. lia.
Qed.

Lemma occurrences_app_le pre rest :
  occurrences sub rest ≤ occurrences sub (pre +:+ rest).
Proof.
  induction pre as [|a pre IH]; [done|].
  rewrite str_app_cons. cbn [occurrences]. lia.
Qed.

Lemma nonoverlapping_le_occurrences s k :
  nonoverlapping sub s k → k ≤ occurrences sub s.
Proof.
  induction 1 as [s|a s k _ IH|rest k _ IH].
  - lia.
  - cbn [occurrences]. lia.
  - pose proof (occurrences_app_le sub' rest).
    rewrite str_app_cons. cbn [occurrences].
    rewrite <-str_app_cons, startswith_app. lia.
Qed.

Lemma count_le_occurrences s : count s sub ≤ occurrences sub s.
Proof. apply nonoverlapping_le_occurrences, nonoverlapping_count. Qed.
End counting.

(** A two-character [sub] whose characters differ cannot overlap itself:
    the scan then finds every occurrence. *)
Lemma count_distinct_pair a c s :
  a ≠ c → count s (String a (String c "")) = occurrences (String a (String c "")) s.
Proof.
  intros Hac.
  remember (String.length s) as n eqn:Hn.
  assert (String.length s ≤ n) as Hs by lia. clear Hn.
  revert s Hs. induction n as [|n IH]; intros [|x s] Hs; simpl in Hs; try lia; try done.
  rewrite count_cons. cbn [occurrences].
  destruct (startswith _ _) eqn:Hm.
  - apply startswith_split in Hm. cbn [String.length drop_str] in Hm.
    destruct s as [|y rest]; [done|]. cbn [drop_str] in Hm.
    injection Hm as -> ->. cbn [String.length drop_str occurrences].
    assert (startswith (String a (String c "")) (String c rest) = false) as ->.
    { simpl. by rewrite decide_False. }
    rewrite IH; [lia | simpl in Hs; lia].
  - rewrite IH; [lia | lia].
Qed.

Lemma vocabulary_entry_length H names g :
  g ∈ build_ngrams H names → String.length g = Z.to_nat N.
Proof.
  rewrite elem_of_build_ngrams, elem_of_ngram_set.
  by intros (name & _ & pre & post & _ & Hg).
Qed.

(** C1 (as the code has it): cell (i, j) of the count matrix is
    [name.count(ngram)] for string i and n-gram j, which is the largest
    number of occurrences of the n-gram that fit into the string without
    overlapping; it is at most the number of overlapping occurrences, and
    equal to it when the two characters of the n-gram differ. *)
Theorem feature_cell_is_count (H : HashOrder) (names : list string)
    (i j : nat) (name g : string) :
  names !! i = Some name →
  build_ngrams H names !! j = Some g →
  cell (feature_matrix H names) i j = Some (count name g) ∧
  nonoverlapping g name (count name g) ∧
  (∀ k, nonoverlapping g name k → k ≤ count name g) ∧
  count name g ≤ occurrences g name ∧
  (∀ a c, g = String a (String c "") → a ≠ c → count name g = occurrences g name).
Proof.
  intros Hi Hj.
  assert (String.length g = Z.to_nat N) as Hg.
  { eapply vocabulary_entry_length, list_elem_of_lookup_2, Hj. }
  destruct g as [|b sub']; [done|].
  split_and!.
  - by apply cell_feature_matrix.
  - apply nonoverlapping_count.
  - intros k. apply nonoverlapping_le_count.
  - apply count_le_occurrences.
  - intros a c [= -> ->]. apply count_distinct_pair.
Qed.

(** In scenario 1 the "aa" column of the row of "aaa" holds 1. *)
Lemma feature_cell_is_count_scenario1 :
  cell (feature_matrix stdpp_order scenario1) 0 1 = Some (count "aaa" "aa") ∧
  nonoverlapping "aa" "aaa" (count "aaa" "aa") ∧
  (∀ k, nonoverlapping "aa" "aaa" k → k ≤ count "aaa" "aa") ∧
  count "aaa" "aa" ≤ occurrences "aa" "aaa" ∧
  (∀ a c, "aa"%string = String a (String c "") → a ≠ c →
          count "aaa" "aa" = occurrences "aa" "aaa").
Proof.
  apply (feature_cell_is_count stdpp_order scenario1 0 1 "aaa" "aa").
  - reflexivity.
  - vm_compute. reflexivity.
Defined.

(** C1 (as stated) fails in scenario 1: "aa" starts at positions 0 and 1
    of "aaa", yet the cell holds 1, in whatever column "aa" is listed. *)
Lemma feature_cell_overlap_counterexample :
  scenario1 !! 0 = Some "aaa"%string ∧
  build_ngrams stdpp_order scenario1 !! 1 = Some "aa"%string ∧
  occurrences "aa" "aaa" = 2 ∧
  cell (feature_matrix stdpp_order scenario1) 0 1 = Some 1 ∧
  (∀ H j, build_ngrams H scenario1 !! j = Some "aa"%string →
          cell (feature_matrix H scenario1) 0 j = Some 1).
Proof.
  split_and!; try by vm_compute.
  intros H j Hj.
  by rewrite (cell_feature_matrix H scenario1 0 j "aaa" "aa").
Qed.

(** C7: the count matrix has one row per string of the corpus, and every
    row has one entry per n-gram of the vocabulary built from that same
    corpus, which has as many entries as the set of n-grams has elements. *)
Theorem feature_matrix_shape (H : HashOrder) (names : list string) :
  length (feature_matrix H names) = length names ∧
  Forall (λ row, length row = length (build_ngrams H names)) (feature_matrix H names) ∧
  length (build_ngrams H names) = size (ngram_set names).
Proof.
  split_and!.
  - apply length_feature_matrix.
  - unfold feature_matrix. apply Forall_fmap, Forall_forall. intros name _.
    simpl. apply length_build.
  - apply length_build_ngrams.
Qed.


(** ** Grouping the names by label *)

Section grouping.
Context {A : Type}.
Implicit Types (labels : list Z) (names grp : list A) (l : Z)
  (ordered : gmap Z (list A)) (zs : list (Z * A)).

Lemma lookup_append_to ordered l' x l :
  append_to ordered l' x !! l =
  if decide (l' = l) then Some (default [] (ordered !! l) ++ [x]) else ordered !! l.
Proof.
  unfold append_to. rewrite lookup_insert. by case_decide; subst.
Qed.

(** What the loop leaves under key [l], started from [ordered]. *)
Lemma lookup_foldl_append_to zs ordered l :
  foldl (λ ordered ln, append_to ordered ln.1 ln.2) ordered zs !! l =
  match (filter (λ ln, ln.1 = l) zs).*2 with
  | [] => ordered !! l
  | grp => Some (default [] (ordered !! l) ++ grp)
  end.
Proof.
  revert ordered. induction zs as [|[l' x] zs IH]; intros ordered; [done|].
  cbn [foldl]. rewrite IH, lookup_append_to, filter_cons. csimpl.
  destruct (decide (l' = l)) as [Hl|Hl]; csimpl; [|done].
  destruct ((filter _ zs).*2); csimpl; [done|]. by rewrite <-(assoc_L (++)).
Qed.

Lemma lookup_order_names labels names l :
  order_names labels names !! l =
  match group_of labels names l with
  | [] => None
  | grp => Some grp
  end.
Proof.
  unfold order_names, group_of. rewrite lookup_foldl_append_to, lookup_empty.
  by destruct ((filter _ _).*2).
Qed.

Lemma order_names_nonempty labels names l grp :
  order_names labels names !! l = Some grp → grp ≠ [].
Proof.
  rewrite lookup_order_names. destruct (group_of _ _ _); [done|].
  by intros [= <-].
Qed.

Lemma order_names_group labels names l grp :
  order_names labels names !! l = Some grp → grp = group_of labels names l.
Proof.
  rewrite lookup_order_names. destruct (group_of _ _ _); [done|].
  by intros [= <-].
Qed.

Lemma elem_of_group_of labels names l x :
  x ∈ group_of labels names l ↔
  ∃ i, labels !! i = Some l ∧ names !! i = Some x.
Proof.
  unfold group_of. rewrite list_elem_of_fmap. split.
  - intros ([l' x'] & -> & Hin). apply list_elem_of_filter in Hin as [Hl Hin].
    simpl in *. subst l'. apply list_elem_of_lookup in Hin as [i Hi].
    apply lookup_zip_with_Some in Hi as (? & ? & [= <- <-] & ? & ?). eauto.
  - intros (i & Hl & Hx). exists (l, x). split; [done|].
    apply list_elem_of_filter. split; [done|].
    apply list_elem_of_lookup. exists i.
    apply lookup_zip_with_Some. eauto.
Qed.

Lemma group_of_sublist labels names l :
  length names ≤ length labels → group_of labels names l `sublist_of` names.
Proof.
  intros Hlen. unfold group_of.
  rewrite <-(snd_zip labels names Hlen) at 2.
  apply fmap_sublist, sublist_filter.
Qed.

(** All groups of a dictionary, one after the other. *)
Lemma concat_append_to ordered l x :
  concat (map_to_list (append_to ordered l x)).*2 ≡ₚ
  concat (map_to_list ordered).*2 ++ [x].
Proof.
  unfold append_to. destruct (ordered !! l) as [grp|] eqn:Hl; simpl.
  - rewrite <-insert_delete_eq, map_to_list_insert by apply lookup_delete_eq.
    rewrite <-(map_to_list_delete ordered l grp Hl). simpl.
    rewrite <-!(assoc_L (++)). f_equiv. apply Permutation_app_comm.
  - rewrite map_to_list_insert by done. simpl.
    by rewrite (Permutation_app_comm _ [x]).
Qed.

Lemma concat_foldl_append_to zs ordered :
  concat (map_to_list (foldl (λ ordered ln, append_to ordered ln.1 ln.2) ordered zs)).*2 ≡ₚ
  concat (map_to_list ordered).*2 ++ zs.*2.
Proof.
  revert ordered. induction zs as [|[l x] zs IH]; intros ordered; simpl.
  - by rewrite (right_id_L [] (++)).
  - rewrite IH, concat_append_to. by rewrite <-(assoc_L (++)).
Qed.

Lemma concat_order_names labels names :
  length names ≤ length labels →
  concat (map_to_list (order_names labels names)).*2 ≡ₚ names.
Proof.
  intros Hlen. unfold order_names.
  rewrite concat_foldl_append_to, map_to_list_empty. simpl.
  by rewrite snd_zip.
Qed.

Lemma dom_order_names labels names :
  length labels ≤ length names →
  dom (order_names labels names) = list_to_set labels.
Proof.
  intros Hlen. apply set_eq. intros l.
  rewrite elem_of_dom, elem_of_list_to_set, lookup_order_names.
  split.
  - intros [grp Hgrp]. destruct (group_of labels names l) as [|x grp'] eqn:Hg; [done|].
    assert (x ∈ group_of labels names l) as Hx by (rewrite Hg; left).
    apply elem_of_group_of in Hx as (i & Hi & _).
    by eapply list_elem_of_lookup_2.
  - intros Hl. apply list_elem_of_lookup in Hl as [i Hi].
    destruct (lookup_lt_is_Some_2 names i) as [x Hx].
    { apply lookup_lt_Some in Hi. lia. }
    assert (x ∈ group_of labels names l) as Hin.
    { apply elem_of_group_of. eauto. }
    destruct (group_of labels names l); [by apply elem_of_nil in Hin | eauto].
Qed.
End grouping.

(** ** The stand-in libraries follow the density rule *)




(** ** Runs of the pipeline *)

Section runs.
Context (L : Library) (H : HashOrder).
Implicit Types (names : list string) (g : gmap Z (list string)) (labels : list Z).

Lemma build_features_inr names X_n :
  build_features L H names = inr X_n →
  ∃ X1, scaler_fit_transform L (feature_matrix H names) = inr X1 ∧
        pca_fit_transform L N_COMPONENTS X1 = inr X_n ∧
        length X_n = length names.
Proof.
  unfold build_features, mbind, raise_bind.
  destruct (scaler_fit_transform _ _) as [e|X1] eqn:H1; [done|].
  destruct (pca_fit_transform _ _ _) as [e|X2] eqn:H2; [done|].
  intros [= <-]. exists X1. split_and!; [done..|].
  by rewrite (pca_rows _ _ _ _ H2), (scaler_rows _ _ _ H1), length_feature_matrix.
Qed.

Lemma cluster_labels_inr names labels :
  cluster_labels L H names = inr labels →
  ∃ X_n, build_features L H names = inr X_n ∧
         dbscan_fit_predict L EPSILON MIN_SAMPLES X_n = inr labels ∧
         length X_n = length names ∧
         length labels = length names ∧
         Forall (λ l, -1 ≤ l)%Z labels.
Proof.
  unfold cluster_labels, mbind at 1, raise_bind at 1.
  destruct (build_features _ _ _) as [e|X_n] eqn:Hf; [done|].
  intros Hd. exists X_n.
  apply build_features_inr in Hf as Hf'. destruct Hf' as (X1 & _ & _ & Hlen).
  split_and!; [done..| |].
  - by rewrite (dbscan_rows _ _ _ _ _ Hd).
  - by eapply dbscan_labels.
Qed.

Lemma clusternames_inr names g :
  clusternames L H names = inr g →
  ∃ labels, cluster_labels L H names = inr labels ∧ g = order_names labels names.
Proof.
  unfold clusternames, mbind, raise_bind.
  destruct (cluster_labels _ _ _) as [e|labels]; [done|].
  intros [= <-]. by exists labels.
Qed.

Lemma clusternames_inl names e :
  clusternames L H names = inl e → library_failure L H names e.
Proof.
  unfold clusternames, cluster_labels, library_failure, mbind, raise_bind.
  destruct (build_features _ _ _) as [e'|X_n] eqn:Hf.
  - intros [= <-]. revert Hf. unfold build_features, mbind, raise_bind.
    destruct (scaler_fit_transform _ _) as [e1|X1]; [intros [= <-]; by left|].
    destruct (pca_fit_transform _ _ _) as [e2|X2] eqn:H2; [|done].
    intros [= <-]. right; left. eauto.
  - destruct (dbscan_fit_predict _ _ _ _) as [e'|labels] eqn:Hd; [|done].
    intros [= <-]. right; right. eauto.
Qed.
End runs.

(** [build_features] asks for [N_COMPONENTS] components whatever the
    shape of the matrix; what comes of it is the library's answer.  On the
    sample corpus (4 rows, 6 columns) the validating stand-in refuses, the
    lenient one keeps the 6 columns there are. *)
Example build_features_sample_refused :
  build_features (stand_in true) stdpp_order sample =
  inl "ValueError: n_components must be between 0 and min(n_samples, n_features)"%string.
Proof. vm_compute. reflexivity. Qed.

Example build_features_sample_kept :
  build_features (stand_in false) stdpp_order sample =
  inr [[1; 0; 1; 0; 1; 0]; [1; 0; 0; 1; 1; 0]; [1; 1; 0; 0; 1; 0]; [0; 0; 0; 0; 0; 6]]%Z.
Proof. vm_compute. reflexivity. Qed.

(** ** The groups *)

Lemma clusternames_groups (L : Library) (H : HashOrder) (names : list string)
    (g : gmap Z (list string)) :
  clusternames L H names = inr g →
  ∃ labels, cluster_labels L H names = inr labels ∧
            length labels = length names ∧
            Forall (λ l, -1 ≤ l)%Z labels ∧
            g = order_names labels names.
Proof.
  intros Hg. apply clusternames_inr in Hg as (labels & Hlabels & ->).
  apply cluster_labels_inr in Hlabels as Hl.
  destruct Hl as (X_n & _ & _ & _ & Hlen & Hge). eauto.
Qed.

(** C4: when [clusternames] returns, its groups partition the corpus.
    There is one label per string; the groups of the dictionary, put one
    after the other, are the corpus as a multiset; the group under a label
    holds exactly the strings at the positions that carry this label, as a
    subsequence of the corpus (so in input order); and a string that
    occurs once in the corpus is in one group only. *)
Theorem clusternames_partition (L : Library) (H : HashOrder)
    (names : list string) (g : gmap Z (list string)) :
  clusternames L H names = inr g →
  ∃ labels,
    cluster_labels L H names = inr labels ∧
    length labels = length names ∧
    concat (dict_items H g).*2 ≡ₚ names ∧
    (∀ l, g !! l = match group_of labels names l with
                   | [] => None
                   | grp => Some grp
                   end) ∧
    (∀ l name, (∃ grp, g !! l = Some grp ∧ name ∈ grp) ↔
               (∃ i, labels !! i = Some l ∧ names !! i = Some name)) ∧
    (∀ l grp, g !! l = Some grp → grp `sublist_of` names) ∧
    (NoDup names → ∀ name l l' grp grp',
       g !! l = Some grp → name ∈ grp →
       g !! l' = Some grp' → name ∈ grp' → l = l').
Proof.
  intros Hg. apply clusternames_groups in Hg as (labels & Hlabels & Hlen & _ & ->).
  assert (∀ l name, (∃ grp, order_names labels names !! l = Some grp ∧ name ∈ grp) ↔
                    (∃ i, labels !! i = Some l ∧ names !! i = Some name)) as Hmem.
  { intros l name. rewrite <-elem_of_group_of. split.
    - intros (grp & Hgrp & Hin). by rewrite <-(order_names_group _ _ _ _ Hgrp).
    - intros Hin. rewrite lookup_order_names.
      destruct (group_of labels names l) as [|x grp]; [by apply elem_of_nil in Hin|].
      eauto. }
  exists labels. split_and!; try done.
  - rewrite (dict_items_perm H). apply concat_order_names. lia.
  - apply lookup_order_names.
  - intros l grp Hgrp. rewrite (order_names_group _ _ _ _ Hgrp).
    apply group_of_sublist. lia.
  - intros Hnodup name l l' grp grp' Hgrp Hin Hgrp' Hin'.
    destruct (proj1 (Hmem l name)) as (i & Hi & Hname); [eauto|].
    destruct (proj1 (Hmem l' name)) as (i' & Hi' & Hname'); [eauto|].
    assert (i = i') as <- by eauto using NoDup_lookup.
    congruence.
Qed.

(** The partition of the sample corpus. *)
Lemma clusternames_partition_sample :
  clusternames (stand_in false) stdpp_order sample = inr sample_groups ∧
  ∃ labels,
    cluster_labels (stand_in false) stdpp_order sample = inr labels ∧
    length labels = length sample ∧
    concat (dict_items stdpp_order sample_groups).*2 ≡ₚ sample ∧
    (∀ l, sample_groups !! l = match group_of labels sample l with
                               | [] => None
                               | grp => Some grp
                               end) ∧
    (∀ l name, (∃ grp, sample_groups !! l = Some grp ∧ name ∈ grp) ↔
               (∃ i, labels !! i = Some l ∧ sample !! i = Some name)) ∧
    (∀ l grp, sample_groups !! l = Some grp → grp `sublist_of` sample) ∧
    (NoDup sample → ∀ name l l' grp grp',
       sample_groups !! l = Some grp → name ∈ grp →
       sample_groups !! l' = Some grp' → name ∈ grp' → l = l').
Proof.
  assert (clusternames (stand_in false) stdpp_order sample = inr sample_groups) as Hrun.
  { vm_compute. reflexivity. }
  split; [exact Hrun|].
  exact (clusternames_partition (stand_in false) stdpp_order sample sample_groups Hrun).
Defined.

(** ** Printing *)

Lemma print_groups_returned items stdout :
  Forall (λ item, item.2 ≠ []) items →
  ∃ out, print_groups items stdout = Returned out.
Proof.
  revert stdout. induction items as [|[cluster contents] items IH];
    intros stdout Hne; simpl; [eauto|].
  apply Forall_cons in Hne as [Hc Hne]. simpl in Hc.
  unfold print_group. destruct contents as [|first rest]; [done|].
  case_decide; simpl; apply IH, Hne.
Qed.

Lemma print_clusters_last H clustered stdout :
  print_clusters H clustered = Returned stdout →
  last stdout =
  Some ("[*] Estimated number of clusters: " +:+ pretty (n_clusters clustered)).
Proof.
  unfold print_clusters. destruct (print_groups _ _); [|done].
  intros [= <-]. apply last_snoc.
Qed.

Lemma print_clusters_returned H clustered :
  (∀ l grp, clustered !! l = Some grp → grp ≠ []) →
  ∃ stdout, print_clusters H clustered = Returned stdout.
Proof.
  intros Hne. unfold print_clusters.
  destruct (print_groups_returned (dict_items H clustered) []) as [out ->]; [|eauto].
  apply Forall_forall. intros [l grp] Hin. simpl.
  rewrite (dict_items_perm H) in Hin.
  apply elem_of_map_to_list in Hin. eauto.
Qed.

(** C10: every key of the dictionary returned by [clusternames] holds a
    list with a first member, and [print_clusters] runs through such a
    dictionary without an [IndexError]. *)
Theorem clusternames_groups_nonempty (L : Library) (H : HashOrder)
    (names : list string) (g : gmap Z (list string)) :
  clusternames L H names = inr g →
  (∀ l grp, g !! l = Some grp → grp ≠ [] ∧ is_Some (head grp)) ∧
  ∃ stdout, print_clusters H g = Returned stdout.
Proof.
  intros Hg. apply clusternames_inr in Hg as (labels & _ & ->).
  split.
  - intros l grp Hgrp. apply order_names_nonempty in Hgrp.
    split; [done|]. by destruct grp.
  - apply print_clusters_returned. intros l grp. apply order_names_nonempty.
Qed.

(** The groups of the sample corpus have first members. *)
Lemma clusternames_groups_nonempty_sample :
  clusternames (stand_in false) stdpp_order sample = inr sample_groups ∧
  (∀ l grp, sample_groups !! l = Some grp → grp ≠ [] ∧ is_Some (head grp)) ∧
  ∃ stdout, print_clusters stdpp_order sample_groups = Returned stdout.
Proof.
  assert (clusternames (stand_in false) stdpp_order sample = inr sample_groups) as Hrun.
  { vm_compute. reflexivity. }
  split; [exact Hrun|].
  exact (clusternames_groups_nonempty (stand_in false) stdpp_order sample sample_groups Hrun).
Defined.

(** ** The reported number of clusters *)

Lemma distinct_clusters_dom labels (names : list string) :
  length labels = length names →
  Forall (λ l, -1 ≤ l)%Z labels →
  distinct_clusters labels = size (dom (order_names labels names) ∖ {[ (-1)%Z ]}).
Proof.
  intros Hlen Hge. unfold distinct_clusters.
  rewrite <-(size_list_to_set (C:=gset Z)) by apply NoDup_remove_dups.
  f_equal. apply set_eq. intros x.
  rewrite elem_of_list_to_set, elem_of_remove_dups, list_elem_of_filter.
  rewrite elem_of_difference, dom_order_names, elem_of_list_to_set by lia.
  rewrite not_elem_of_singleton. split.
  - intros [? ?]. split; [done | lia].
  - intros [Hx ?]. split; [|done].
    rewrite Forall_forall in Hge. specialize (Hge x Hx). simpl in Hge. lia.
Qed.

Lemma n_clusters_size_difference (clustered : gmap Z (list string)) :
  n_clusters clustered = Z.of_nat (size (dom clustered ∖ {[ (-1)%Z ]})).
Proof.
  unfold n_clusters. case_decide as Hin.
  - rewrite size_difference by by apply singleton_subseteq_l.
    rewrite size_singleton, size_dom.
    assert (size clustered ≠ 0); [|lia].
    rewrite <-size_dom. intros Hz. apply size_empty_iff in Hz. set_solver.
  - rewrite difference_disjoint_L by set_solver. rewrite size_dom. lia.
Qed.

(** C8: for a dictionary returned by [clusternames], [print_clusters]
    returns, and the last line it prints is
    "[*] Estimated number of clusters: " followed by the number of distinct
    labels that are not negative, which is the number of groups other than
    the one under -1. *)
Theorem print_clusters_count (L : Library) (H : HashOrder)
    (names : list string) (g : gmap Z (list string)) :
  clusternames L H names = inr g →
  ∃ labels stdout,
    cluster_labels L H names = inr labels ∧
    print_clusters H g = Returned stdout ∧
    last stdout =
      Some ("[*] Estimated number of clusters: " +:+
            pretty (Z.of_nat (distinct_clusters labels))) ∧
    distinct_clusters labels = size (delete (-1)%Z g).
Proof.
  intros Hg.
  apply clusternames_groups in Hg as (labels & Hlabels & Hlen & Hge & ->).
  destruct (print_clusters_returned H (order_names labels names)) as [stdout Hout].
  { intros l grp. apply order_names_nonempty. }
  exists labels, stdout. split_and!; [done..| |].
  - rewrite (print_clusters_last _ _ _ Hout), n_clusters_size_difference.
    by rewrite <-distinct_clusters_dom.
  - rewrite (distinct_clusters_dom labels names) by done.
    by rewrite <-dom_delete_L, size_dom.
Qed.

(** One cluster is reported for the sample corpus. *)
Lemma print_clusters_count_sample :
  clusternames (stand_in false) stdpp_order sample = inr sample_groups ∧
  ∃ labels stdout,
    cluster_labels (stand_in false) stdpp_order sample = inr labels ∧
    print_clusters stdpp_order sample_groups = Returned stdout ∧
    last stdout =
      Some ("[*] Estimated number of clusters: " +:+
            pretty (Z.of_nat (distinct_clusters labels))) ∧
    distinct_clusters labels = size (delete (-1)%Z sample_groups).
Proof.
  assert (clusternames (stand_in false) stdpp_order sample = inr sample_groups) as Hrun.
  { vm_compute. reflexivity. }
  split; [exact Hrun|].
  exact (print_clusters_count (stand_in false) stdpp_order sample sample_groups Hrun).
Defined.

Example print_clusters_sample :
  print_clusters stdpp_order sample_groups =
  Returned ["[*] --- Outside any cluster ---"; "[+] zzzzzzzzzzzz";
            "[*] --- Cluster: foo1 ---"; "[+] foo1"; "[+] foo2"; "[+] foo3";
            "[*] Estimated number of clusters: 1"]%string.
Proof. vm_compute. reflexivity. Qed.

(** ** A corpus of one string *)



(** ** A corpus without n-grams *)

Lemma feature_matrix_no_ngrams H names :
  build_ngrams H names = [] → feature_matrix H names = replicate (length names) [].
Proof.
  intros Hv. unfold feature_matrix. rewrite Hv. clear Hv. simpl.
  induction names as [|name names IH]; [done|]. csimpl. by rewrite IH.
Qed.

(** C3 (as the code has it): for a corpus whose vocabulary is empty the
    program checks nothing itself.  It hands a matrix of empty rows, one
    per string, to the normalizer; a run that ends in an exception ends in
    the exception one of the three library calls raised; and when the
    three calls return, [clusternames] returns the groups. *)
Theorem empty_vocabulary_run (L : Library) (H : HashOrder) (names : list string) :
  build_ngrams H names = [] →
  feature_matrix H names = replicate (length names) [] ∧
  (∀ e, clusternames L H names = inl e → library_failure L H names e) ∧
  (∀ X1 X_n labels,
     scaler_fit_transform L (replicate (length names) []) = inr X1 →
     pca_fit_transform L N_COMPONENTS X1 = inr X_n →
     dbscan_fit_predict L EPSILON MIN_SAMPLES X_n = inr labels →
     clusternames L H names = inr (order_names labels names)).
Proof.
  intros Hv. pose proof (feature_matrix_no_ngrams H names Hv) as HX.
  split_and!; [done | apply clusternames_inl |].
  intros X1 X_n labels H1 H2 H3.
  unfold clusternames, cluster_labels, build_features, mbind, raise_bind.
  by rewrite HX, H1, H2, H3.
Qed.

(** Scenario 3 with the validating stand-in. *)
Lemma empty_vocabulary_run_scenario3 :
  build_ngrams stdpp_order scenario3 = [] ∧
  feature_matrix stdpp_order scenario3 = replicate (length scenario3) [] ∧
  (∀ e, clusternames (stand_in true) stdpp_order scenario3 = inl e →
        library_failure (stand_in true) stdpp_order scenario3 e) ∧
  (∀ X1 X_n labels,
     scaler_fit_transform (stand_in true) (replicate (length scenario3) []) = inr X1 →
     pca_fit_transform (stand_in true) N_COMPONENTS X1 = inr X_n →
     dbscan_fit_predict (stand_in true) EPSILON MIN_SAMPLES X_n = inr labels →
     clusternames (stand_in true) stdpp_order scenario3 = inr (order_names labels scenario3)).
Proof.
  assert (build_ngrams stdpp_order scenario3 = []) as Hv.
  { vm_compute. reflexivity. }
  split; [exact Hv|].
  exact (empty_vocabulary_run (stand_in true) stdpp_order scenario3 Hv).
Defined.

(** C3 (as stated) fails in scenario 3.  The vocabulary is empty and the
    matrix has two empty rows; with a library that refuses such a matrix
    the run ends in that library's own exception, raised by the
    normalizer; with a library that takes it the run ends in no error at
    all and both lines come out as noise. *)
Lemma empty_vocabulary_counterexample :
  build_ngrams stdpp_order scenario3 = [] ∧
  feature_matrix stdpp_order scenario3 = [[]; []] ∧
  clusternames (stand_in true) stdpp_order scenario3 =
    inl "ValueError: Found array with 0 feature(s)"%string ∧
  scaler_fit_transform (stand_in true) (feature_matrix stdpp_order scenario3) =
    inl "ValueError: Found array with 0 feature(s)"%string ∧
  clusternames (stand_in false) stdpp_order scenario3 = inr {[ (-1)%Z := scenario3 ]} ∧
  (∀ L H e, clusternames L H scenario3 = inl e → library_failure L H scenario3 e).
Proof.
  split_and!; try (vm_compute; reflexivity).
  intros L H e. apply clusternames_inl.
Qed.

(** ** The command line on an example *)

Example strip_line : strip (" foo 1" +:+ String (Ascii.ascii_of_nat 10) "") = "foo 1"%string.
Proof. reflexivity. Qed.

Example main_sample :
  main (stand_in false) stdpp_order
       ((λ name, "  " +:+ name +:+ String (Ascii.ascii_of_nat 10) "") <$> sample) =
  inr (Returned ["[*] --- Outside any cluster ---"; "[+] zzzzzzzzzzzz";
                 "[*] --- Cluster: foo1 ---"; "[+] foo1"; "[+] foo2"; "[+] foo3";
                 "[*] Estimated number of clusters: 1"]%string).
Proof. vm_compute. reflexivity. Qed.

(** * Further properties *)

(** ** The vocabulary, continued *)

Section vocabulary_more.
Implicit Types (names : list string) (name g : string) (ngrams : gset string).

Lemma ngram_set_app names1 names2 :
  ngram_set (names1 ++ names2) = ngram_set names1 ∪ ngram_set names2.
Proof.
  apply set_eq. intros g.
  rewrite elem_of_union, !elem_of_ngram_set.
  setoid_rewrite elem_of_app. naive_solver.
Qed.

Lemma ngram_set_ext names names' :
  (∀ name, name ∈ names ↔ name ∈ names') → ngram_set names = ngram_set names'.
Proof.
  intros Hsame. apply set_eq. intros g. rewrite !elem_of_ngram_set.
  by setoid_rewrite Hsame.
Qed.

Lemma size_foldl_add {A} (f : A → string) (l : list A) ngrams :
  size (foldl (λ acc i, acc ∪ {[ f i ]}) ngrams l) ≤ size ngrams + length l.
Proof.
  revert ngrams. induction l as [|x l IH]; intros ngrams; simpl; [lia|].
  etrans; [apply IH|].
  rewrite size_union_alt.
  assert (size (({[ f x ]} : gset string) ∖ ngrams) ≤ 1); [|lia].
  rewrite <-(size_singleton (C:=gset string) (f x)).
  apply subseteq_size. set_solver.
Qed.

Lemma size_add_ngrams ngrams name :
  size (add_ngrams ngrams name) ≤ size ngrams + windows name.
Proof.
  unfold add_ngrams, windows. etrans; [apply size_foldl_add|].
  unfold xrange. by rewrite length_seq.
Qed.

Lemma size_foldl_add_ngrams names ngrams :
  size (foldl add_ngrams ngrams names) ≤ size ngrams + sum_list (windows <$> names).
Proof.
  revert ngrams. induction names as [|name names IH]; intros ngrams; csimpl; [lia|].
  etrans; [apply IH|]. pose proof (size_add_ngrams ngrams name). lia.
Qed.

Lemma ngram_of_length n g name : ngram_of n g name → n ≤ String.length name.
Proof. intros (pre & post & -> & <-). rewrite !str_length_app. lia. Qed.

Lemma first_ngram name :
  (N ≤ len name)%Z → ngram_of (Z.to_nat N) (String.substring 0 (Z.to_nat N) name) name.
Proof.
  intros Hlen.
  destruct (substring_split name 0 (Z.to_nat N)) as (pre & post & Hs & _ & Hl).
  { unfold len, N in *. lia. }
  by exists pre, post.
Qed.
End vocabulary_more.

(** X1: the vocabulary of two batches of names put together is the union
    of their vocabularies. *)
Theorem build_ngrams_app (H : HashOrder) (names1 names2 : list string) :
  build_ngrams H (names1 ++ names2) ≡ₚ elements (ngram_set names1 ∪ ngram_set names2).
Proof. unfold build_ngrams. by rewrite (set_list_perm H), ngram_set_app. Qed.

(** X2: the vocabulary depends only on which strings occur in the corpus:
    two corpora with the same members, in any order and with any
    repetitions, give the same n-grams, whatever the order in which the
    set is listed. *)
Theorem build_ngrams_same_members (H1 H2 : HashOrder) (names names' : list string) :
  (∀ name, name ∈ names ↔ name ∈ names') →
  build_ngrams H1 names ≡ₚ build_ngrams H2 names'.
Proof.
  intros Hsame. unfold build_ngrams.
  by rewrite (set_list_perm H1), (set_list_perm H2), (ngram_set_ext _ _ Hsame).
Qed.

Lemma build_ngrams_same_members_example :
  build_ngrams stdpp_order ["ab"; "bcd"; "ab"]%string ≡ₚ
  build_ngrams stdpp_order ["bcd"; "ab"]%string.
Proof.
  apply (build_ngrams_same_members stdpp_order stdpp_order).
  intros name. rewrite !elem_of_cons. tauto.
Defined.

(** X3: the vocabulary has at most as many entries as the inner loop of
    [build_ngrams] makes steps: the sum over the names of
    [len(name) - N + 1], where that is positive. *)
Theorem build_ngrams_length_bound (H : HashOrder) (names : list string) :
  length (build_ngrams H names) ≤ sum_list (windows <$> names).
Proof.
  rewrite length_build_ngrams. unfold ngram_set.
  etrans; [apply size_foldl_add_ngrams|]. by rewrite size_empty.
Qed.

(** X4: the vocabulary is empty exactly when every name is shorter than
    [N]. *)
Theorem build_ngrams_empty_iff (H : HashOrder) (names : list string) :
  build_ngrams H names = [] ↔ Forall (λ name, (len name < N)%Z) names.
Proof.
  split.
  - intros Hnil. apply Forall_forall. intros name Hin.
    destruct (decide (len name < N)%Z) as [|Hge]; [done|].
    assert (String.substring 0 (Z.to_nat N) name ∈ build_ngrams H names) as Hg.
    { apply elem_of_build_ngrams, elem_of_ngram_set.
      exists name. split; [done|]. apply first_ngram. lia. }
    rewrite Hnil in Hg. by apply elem_of_nil in Hg.
  - intros Hshort. destruct (build_ngrams H names) as [|g gs] eqn:Hv; [done|].
    assert (g ∈ build_ngrams H names) as Hg by (rewrite Hv; left).
    apply elem_of_build_ngrams, elem_of_ngram_set in Hg as (name & Hin & Hg).
    apply ngram_of_length in Hg.
    rewrite Forall_forall in Hshort. specialize (Hshort name Hin).
    unfold len, N in *. lia.
Qed.

(** ** The count matrix, continued *)

Lemma nonoverlapping_length sub s k :
  nonoverlapping sub s k → k * String.length sub ≤ String.length s.
Proof.
  induction 1 as [s|a s k _ IH|rest k _ IH]; simpl; [lia..|].
  rewrite str_length_app. lia.
Qed.

Lemma nonoverlapping_inside pre g post : nonoverlapping g (pre +:+ g +:+ post) 1.
Proof.
  induction pre as [|a pre IH].
  - rewrite str_app_nil_l. apply nonoverlapping_take, nonoverlapping_stop.
  - rewrite str_app_cons. by apply nonoverlapping_step.
Qed.

Lemma count_length s g :
  g ≠ ""%string → count s g * String.length g ≤ String.length s.
Proof.
  intros Hg. destruct g as [|b sub']; [done|].
  apply nonoverlapping_length, nonoverlapping_count.
Qed.

Lemma count_inside pre g post : g ≠ ""%string → 1 ≤ count (pre +:+ g +:+ post) g.
Proof.
  intros Hg. destruct g as [|b sub']; [done|].
  apply nonoverlapping_le_count, nonoverlapping_inside.
Qed.

Lemma vocabulary_entry_nonempty H names g : g ∈ build_ngrams H names → g ≠ ""%string.
Proof. intros Hg%vocabulary_entry_length. by destruct g. Qed.

Lemma cell_feature_matrix_inv H names i j c :
  cell (feature_matrix H names) i j = Some c →
  ∃ name g, names !! i = Some name ∧ build_ngrams H names !! j = Some g ∧
            c = count name g.
Proof.
  unfold cell, feature_matrix, build. rewrite list_lookup_fmap.
  destruct (names !! i) as [name|]; [|done]. simpl.
  rewrite list_lookup_fmap.
  destruct (build_ngrams H names !! j) as [g|]; [|done]. simpl.
  intros [= <-]. eauto.
Qed.

Lemma cell_feature_matrix_None H names i j :
  names !! i = None → cell (feature_matrix H names) i j = None.
Proof.
  intros Hi. unfold cell, feature_matrix. by rewrite list_lookup_fmap, Hi.
Qed.

(** X5: no column of the count matrix is all zeros: the n-gram of a
    column occurs in some string of the corpus, whose row holds a count of
    at least one there. *)
Theorem feature_column_positive (H : HashOrder) (names : list string)
    (j : nat) (g : string) :
  build_ngrams H names !! j = Some g →
  ∃ i name, names !! i = Some name ∧
            cell (feature_matrix H names) i j = Some (count name g) ∧
            1 ≤ count name g.
Proof.
  intros Hj. pose proof (list_elem_of_lookup_2 _ _ _ Hj) as Hg.
  pose proof (vocabulary_entry_nonempty _ _ _ Hg) as Hne.
  apply elem_of_build_ngrams, elem_of_ngram_set in Hg
    as (name & Hin & pre & post & -> & _).
  apply list_elem_of_lookup in Hin as [i Hi].
  exists i, (pre +:+ g +:+ post). split_and!; [done| |].
  - by apply cell_feature_matrix.
  - by apply count_inside.
Qed.

Lemma feature_column_positive_scenario1 :
  ∃ i name, scenario1 !! i = Some name ∧
            cell (feature_matrix stdpp_order scenario1) i 1 = Some (count name "aa") ∧
            1 ≤ count name "aa".
Proof.
  apply (feature_column_positive stdpp_order scenario1 1 "aa").
  vm_compute. reflexivity.
Defined.

(** X6: a cell of the count matrix, multiplied by [N], is at most the
    length of the string of its row; so the row of a string shorter than
    [N] holds only zeros. *)
Theorem feature_cell_bound (H : HashOrder) (names : list string)
    (i j c : nat) (name : string) :
  names !! i = Some name →
  cell (feature_matrix H names) i j = Some c →
  (Z.of_nat c * N ≤ len name)%Z ∧ ((len name < N)%Z → c = 0).
Proof.
  intros Hi Hc.
  apply cell_feature_matrix_inv in Hc as (name' & g & Hi' & Hj & ->).
  assert (name' = name) as -> by congruence.
  pose proof (list_elem_of_lookup_2 _ _ _ Hj) as Hg.
  pose proof (vocabulary_entry_length _ _ _ Hg) as Hlen.
  pose proof (count_length name g (vocabulary_entry_nonempty _ _ _ Hg)) as Hb.
  rewrite Hlen in Hb. unfold len, N in *. split; [lia | nia].
Qed.

Lemma feature_cell_bound_scenario1 :
  (Z.of_nat 1 * N ≤ len "aaa")%Z ∧ ((len "aaa" < N)%Z → 1 = 0).
Proof.
  apply (feature_cell_bound stdpp_order scenario1 0 1 1 "aaa").
  - reflexivity.
  - vm_compute. reflexivity.
Defined.

(** X7: the order in which the set of n-grams is listed only moves the
    columns of the count matrix: the column of an n-gram under one order
    is, cell by cell, its column under any other order. *)
Theorem feature_columns_any_order (H1 H2 : HashOrder) (names : list string)
    (j1 : nat) (g : string) :
  build_ngrams H1 names !! j1 = Some g →
  ∃ j2, build_ngrams H2 names !! j2 = Some g ∧
        ∀ i, cell (feature_matrix H1 names) i j1 = cell (feature_matrix H2 names) i j2.
Proof.
  intros Hj1.
  assert (g ∈ build_ngrams H2 names) as Hg.
  { apply elem_of_build_ngrams. eapply elem_of_build_ngrams, list_elem_of_lookup_2, Hj1. }
  apply list_elem_of_lookup in Hg as [j2 Hj2].
  exists j2. split; [done|]. intros i.
  destruct (names !! i) as [name|] eqn:Hi.
  - by rewrite (cell_feature_matrix H1 names i j1 name g),
               (cell_feature_matrix H2 names i j2 name g).
  - by rewrite !cell_feature_matrix_None.
Qed.

Lemma feature_columns_any_order_scenario1 :
  ∃ j2, build_ngrams reversed_order scenario1 !! j2 = Some "aa"%string ∧
        ∀ i, cell (feature_matrix stdpp_order scenario1) i 1 =
             cell (feature_matrix reversed_order scenario1) i j2.
Proof.
  apply (feature_columns_any_order stdpp_order reversed_order scenario1 1 "aa").
  vm_compute. reflexivity.
Defined.

(** ** Grouping, continued *)

Section grouping_more.
Context {A : Type}.
Implicit Types (labels : list Z) (names grp : list A) (l : Z).

Lemma group_of_app labels1 labels2 names1 names2 l :
  length labels1 = length names1 →
  group_of (labels1 ++ labels2) (names1 ++ names2) l =
  group_of labels1 names1 l ++ group_of labels2 names2 l.
Proof.
  intros Hlen. unfold group_of.
  rewrite (zip_with_app pair labels1 labels2 names1 names2 Hlen).
  by rewrite filter_app, fmap_app.
Qed.

Lemma group_of_fmap (f : Z → Z) `{!Inj (=) (=) f} labels names l :
  group_of (f <$> labels) names (f l) = group_of labels names l.
Proof.
  unfold group_of. revert names.
  induction labels as [|l0 labels IH]; intros [|x names]; csimpl; try done.
  rewrite !filter_cons. simpl.
  destruct (decide (f l0 = f l)) as [Hf|Hf], (decide (l0 = l)) as [Hl|Hl]; csimpl.
  - by rewrite IH.
  - by apply (inj f) in Hf.
  - by subst.
  - apply IH.
Qed.

Lemma group_of_nonempty_label labels names l :
  group_of labels names l ≠ [] → ∃ i, labels !! i = Some l ∧ i < length names.
Proof.
  intros Hne. destruct (group_of labels names l) as [|x grp] eqn:Hg; [done|].
  assert (x ∈ group_of labels names l) as Hx by (rewrite Hg; left).
  apply elem_of_group_of in Hx as (i & Hi & Hx).
  exists i. split; [done|]. by eapply lookup_lt_Some.
Qed.

Lemma dom_order_names_take labels names :
  dom (order_names labels names) = list_to_set (take (length names) labels).
Proof.
  apply set_eq. intros l.
  rewrite elem_of_dom, elem_of_list_to_set, elem_of_take, lookup_order_names.
  split.
  - intros [grp Hgrp]. apply group_of_nonempty_label.
    by destruct (group_of labels names l).
  - intros (i & Hi & Hlt).
    destruct (lookup_lt_is_Some_2 names i Hlt) as [x Hx].
    assert (x ∈ group_of labels names l) as Hin.
    { apply elem_of_group_of. eauto. }
    destruct (group_of labels names l); [by apply elem_of_nil in Hin | eauto].
Qed.

Lemma head_filter_first {B} (P : B → Prop) `{!∀ z, Decision (P z)} (zs : list B) z :
  head (filter P zs) = Some z →
  ∃ i, zs !! i = Some z ∧ P z ∧ ∀ i' z', i' < i → zs !! i' = Some z' → ¬ P z'.
Proof.
  induction zs as [|z0 zs IH]; [done|].
  rewrite filter_cons. destruct (decide (P z0)) as [Hz0|Hz0]; simpl.
  - intros [= <-]. exists 0. split_and!; [done..|]. lia.
  - intros (i & Hi & Hz & Hfirst)%IH. exists (S i). split_and!; [done..|].
    intros [|i'] z' Hlt; simpl; [by intros [= <-]|].
    apply Hfirst. lia.
Qed.
End grouping_more.

Lemma size_list_to_set_le (l : list Z) : size (list_to_set l : gset Z) ≤ length l.
Proof.
  induction l as [|x l IH]; simpl; [done|].
  rewrite size_union_alt, size_singleton.
  assert (size ((list_to_set l : gset Z) ∖ {[x]}) ≤ size (list_to_set l : gset Z)); [|lia].
  apply subseteq_size. set_solver.
Qed.

(** X8: the loop of [clusternames] stops with the shorter of the labels
    and the names: what lies beyond the length of the other is left out.
    The keys of the dictionary are the labels that were paired with a
    name, so there are at most as many groups as names, or as labels. *)
Theorem order_names_shorter {A} (labels : list Z) (names : list A) :
  order_names labels names =
    order_names (take (length names) labels) (take (length labels) names) ∧
  dom (order_names labels names) = list_to_set (take (length names) labels) ∧
  size (order_names labels names) ≤ length labels `min` length names.
Proof.
  split_and!.
  - unfold order_names. by rewrite zip_with_take_both.
  - apply dom_order_names_take.
  - rewrite <-size_dom, dom_order_names_take.
    etrans; [apply size_list_to_set_le|]. rewrite length_take. lia.
Qed.

(** X9: which number a cluster carries does not matter for the groups:
    renaming the labels one-to-one renames the keys of the dictionary and
    leaves every group as it is. *)
Theorem order_names_relabel {A} (f : Z → Z) `{!Inj (=) (=) f}
    (labels : list Z) (names : list A) :
  order_names (f <$> labels) names = kmap f (order_names labels names).
Proof.
  apply map_eq. intros k. apply option_eq. intros grp.
  rewrite lookup_kmap_Some by apply _. rewrite lookup_order_names. split.
  - intros Hgrp.
    destruct (group_of_nonempty_label (f <$> labels) names k) as (i & Hi & _).
    { by destruct (group_of _ _ _). }
    rewrite list_lookup_fmap in Hi.
    destruct (labels !! i) as [l|]; [|done]. injection Hi as <-.
    exists l. split; [done|].
    by rewrite lookup_order_names, <-(group_of_fmap f).
  - intros (l & -> & Hl). by rewrite group_of_fmap, <-lookup_order_names.
Qed.

Lemma order_names_relabel_example :
  order_names (Z.succ <$> [0; -1; 0]%Z) ["a"; "b"; "c"]%string =
  kmap Z.succ (order_names [0; -1; 0]%Z ["a"; "b"; "c"]%string).
Proof.
  exact (@order_names_relabel string Z.succ Z.succ_inj [0; -1; 0]%Z ["a"; "b"; "c"]%string).
Defined.

(** X10: grouping a corpus that comes in two batches, each with its
    labels, gives under every key the group of the first batch followed by
    the group of the second. *)
Theorem order_names_app {A} (labels1 labels2 : list Z) (names1 names2 : list A) :
  length labels1 = length names1 →
  order_names (labels1 ++ labels2) (names1 ++ names2) =
  union_with (λ grp1 grp2, Some (grp1 ++ grp2))
             (order_names labels1 names1) (order_names labels2 names2).
Proof.
  intros Hlen. apply map_eq. intros l.
  rewrite lookup_union_with, !lookup_order_names, group_of_app by done.
  destruct (group_of labels1 names1 l), (group_of labels2 names2 l); simpl; try done.
  by rewrite (right_id_L [] (++)).
Qed.

Lemma order_names_app_example :
  order_names ([0; -1]%Z ++ [0]%Z) (["a"; "b"]%string ++ ["c"]%string) =
  union_with (λ grp1 grp2, Some (grp1 ++ grp2))
             (order_names [0; -1]%Z ["a"; "b"]%string)
             (order_names [0]%Z ["c"]%string).
Proof. apply (order_names_app [0; -1]%Z [0]%Z). reflexivity. Defined.

(** X11: the first member of a group, by which [print_clusters] names a
    cluster, is the first string of the corpus that carries the label of
    the group. *)
Theorem order_names_head {A} (labels : list Z) (names : list A) (l : Z) (grp : list A) :
  order_names labels names !! l = Some grp →
  ∃ i first, head grp = Some first ∧
             labels !! i = Some l ∧ names !! i = Some first ∧
             ∀ i', i' < i → labels !! i' ≠ Some l.
Proof.
  intros Hgrp. pose proof (order_names_nonempty _ _ _ _ Hgrp) as Hne.
  apply order_names_group in Hgrp as ->. unfold group_of in *.
  destruct (filter _ _) as [|[l' first] zs] eqn:Hf; [done|].
  assert (head (filter (λ ln : Z * A, ln.1 = l) (zip labels names)) = Some (l', first))
    as Hhead by by rewrite Hf.
  apply head_filter_first in Hhead as (i & Hi & Hl & Hfirst). simpl in Hl. subst l'.
  apply lookup_zip_with_Some in Hi as (? & ? & [= <- <-] & Hli & Hni).
  exists i, first. split_and!; [done..|].
  intros i' Hlt Hli'.
  destruct (lookup_lt_is_Some_2 names i') as [x Hx].
  { apply lookup_lt_Some in Hni. lia. }
  apply (Hfirst i' (l, x) Hlt); [|done].
  apply lookup_zip_with_Some. eauto.
Qed.

Lemma order_names_head_example :
  ∃ i first, head ["a"; "c"]%string = Some first ∧
             [0; -1; 0]%Z !! i = Some 0%Z ∧ ["a"; "b"; "c"]%string !! i = Some first ∧
             ∀ i', i' < i → [0; -1; 0]%Z !! i' ≠ Some 0%Z.
Proof.
  apply (order_names_head [0; -1; 0]%Z ["a"; "b"; "c"]%string 0%Z).
  reflexivity.
Defined.

(** ** Printing, continued *)

Lemma print_group_block cluster contents :
  (cluster ≠ (-1)%Z → contents ≠ []) →
  print_group cluster contents = Some (block cluster contents).
Proof.
  intros Hne. unfold print_group, block.
  destruct (decide (cluster ≠ (-1)%Z)) as [Hc|Hc]; [|done].
  destruct contents as [|first rest]; [by destruct (Hne Hc)|done].
Qed.

Lemma print_group_None cluster contents :
  print_group cluster contents = None ↔ cluster ≠ (-1)%Z ∧ contents = [].
Proof.
  unfold print_group.
  destruct (decide (cluster ≠ (-1)%Z)) as [Hc|Hc], contents as [|first rest];
    simpl; naive_solver.
Qed.

Lemma print_groups_Returned items stdout out :
  print_groups items stdout = Returned out ↔
  Forall (λ item, item.1 ≠ (-1)%Z → item.2 ≠ []) items ∧
  out = stdout ++ concat ((λ item, block item.1 item.2) <$> items).
Proof.
  revert stdout. induction items as [|[cluster contents] items IH]; intros stdout.
  - simpl. rewrite (right_id_L [] (++)). split; [by intros [= <-] | by intros [_ ->]].
  - rewrite fmap_cons. cbn [print_groups concat fst snd].
    destruct (print_group cluster contents) as [lines|] eqn:Hg.
    + assert (cluster ≠ (-1)%Z → contents ≠ []) as Hne.
      { intros Hc ->. assert (print_group cluster [] = None) as Hn; [|congruence].
        by apply print_group_None. }
      rewrite (print_group_block _ _ Hne) in Hg. injection Hg as <-.
      rewrite IH, Forall_cons, (assoc_L (++)). naive_solver.
    + apply print_group_None in Hg as [Hc ->].
      split; [done|]. intros [Hall _]. apply Forall_cons in Hall as [Hne _].
      by destruct (Hne Hc).
Qed.

Lemma print_groups_IndexError items stdout out :
  print_groups items stdout = IndexError out →
  ∃ printed_items, out = stdout ++ concat ((λ item, block item.1 item.2) <$> printed_items).
Proof.
  revert stdout. induction items as [|[cluster contents] items IH]; intros stdout; [done|].
  cbn [print_groups].
  destruct (print_group cluster contents) as [lines|] eqn:Hg.
  - intros (printed_items & ->)%IH.
    assert (cluster ≠ (-1)%Z → contents ≠ []) as Hne.
    { intros Hc ->. assert (print_group cluster [] = None) as Hn; [|congruence].
      by apply print_group_None. }
    rewrite (print_group_block _ _ Hne) in Hg. injection Hg as <-.
    exists ((cluster, contents) :: printed_items).
    rewrite fmap_cons. cbn [concat fst snd]. by rewrite (assoc_L (++)).
  - intros [= <-]. exists []. simpl. by rewrite (right_id_L [] (++)).
Qed.

Lemma print_clusters_Returned H clustered stdout :
  print_clusters H clustered = Returned stdout ↔
  (∀ l, l ≠ (-1)%Z → clustered !! l ≠ Some []) ∧
  stdout = concat ((λ item, block item.1 item.2) <$> dict_items H clustered)
           ++ [summary_line clustered].
Proof.
  assert (Forall (λ item : Z * list string, item.1 ≠ (-1)%Z → item.2 ≠ [])
                 (dict_items H clustered) ↔
          ∀ l, l ≠ (-1)%Z → clustered !! l ≠ Some []) as Hall.
  { rewrite Forall_forall. split.
    - intros Hf l Hl Hm. apply (Hf (l, [])); [|done..].
      rewrite (dict_items_perm H). by apply elem_of_map_to_list.
    - intros Hm [l grp] Hin Hl Hgrp. simpl in *. subst grp. apply (Hm l Hl).
      rewrite (dict_items_perm H) in Hin. by apply elem_of_map_to_list in Hin. }
  unfold print_clusters, summary_line.
  destruct (print_groups _ _) as [out|out] eqn:Hp.
  - apply print_groups_Returned in Hp as [Hf ->]. simpl.
    rewrite <-Hall. split; [by intros [= <-] | by intros [_ ->]].
  - split; [done|]. intros [Hm _]. apply Hall in Hm.
    assert (print_groups (dict_items H clustered) [] =
            Returned ([] ++ concat ((λ item, block item.1 item.2) <$> dict_items H clustered)))
      as Hr by by apply print_groups_Returned.
    congruence.
Qed.

Lemma elem_of_concat {B} (ls : list (list B)) (x : B) :
  x ∈ concat ls → ∃ l, x ∈ l ∧ l ∈ ls.
Proof.
  induction ls as [|l ls IH]; simpl; [by intros ?%elem_of_nil|].
  rewrite elem_of_app. intros [Hx|Hx].
  - exists l. split; [done | left].
  - destruct (IH Hx) as (l' & ? & ?). exists l'. split; [done | by right].
Qed.

Lemma not_summary_block cluster contents line :
  line ∈ block cluster contents → startswith "[*] Estimated" line = false.
Proof.
  unfold block. rewrite elem_of_cons, list_elem_of_fmap.
  intros [->|(item & -> & _)]; [|done].
  by case_decide.
Qed.

Lemma member_lines_items (contents : list string) :
  member_lines ((λ item, "[+] " +:+ item) <$> contents) =
  (λ item, "[+] " +:+ item) <$> contents.
Proof.
  unfold member_lines. induction contents as [|item contents IH]; [done|].
  rewrite fmap_cons, filter_cons, IH.
  by rewrite decide_True by apply (startswith_app "[+] " item).
Qed.

Lemma member_lines_block cluster contents :
  member_lines (block cluster contents) = (λ item, "[+] " +:+ item) <$> contents.
Proof.
  unfold member_lines, block. rewrite filter_cons.
  assert (startswith "[+] " (if decide (cluster ≠ (-1)%Z)
            then "[*] --- Cluster: " +:+ default "" (head contents) +:+ " ---"
            else "[*] --- Outside any cluster ---") = false) as ->
    by by case_decide.
  rewrite decide_False by done. apply member_lines_items.
Qed.

Lemma member_lines_blocks (items : list (Z * list string)) :
  member_lines (concat ((λ item, block item.1 item.2) <$> items)) =
  (λ item, "[+] " +:+ item) <$> concat items.*2.
Proof.
  induction items as [|[cluster contents] items IH]; [done|].
  rewrite !fmap_cons. cbn [concat fst snd].
  unfold member_lines in *. rewrite filter_app, IH, fmap_app.
  f_equal. apply member_lines_block.
Qed.

Lemma length_blocks (items : list (Z * list string)) :
  length (concat ((λ item, block item.1 item.2) <$> items)) =
  length items + length (concat items.*2).
Proof.
  induction items as [|[cluster contents] items IH]; [done|].
  rewrite !fmap_cons. cbn [concat fst snd].
  rewrite !length_app, IH. unfold block. cbn [length]. rewrite length_fmap. lia.
Qed.

Lemma length_dict_items H (clustered : gmap Z (list string)) :
  length (dict_items H clustered) = size clustered.
Proof. by rewrite (dict_items_perm H), length_map_to_list. Qed.

(** X12: [print_clusters] returns exactly when no key other than -1 holds
    an empty list (an empty list under -1 does no harm); when it stops on
    [contents[0]], what it has written so far are headers and members of
    whole groups, and the line with the number of clusters is not among
    them. *)
Theorem print_clusters_returns_iff (H : HashOrder) (clustered : gmap Z (list string)) :
  ((∃ stdout, print_clusters H clustered = Returned stdout) ↔
   (∀ l, l ≠ (-1)%Z → clustered !! l ≠ Some [])) ∧
  (∀ stdout, print_clusters H clustered = IndexError stdout →
     (∃ l, l ≠ (-1)%Z ∧ clustered !! l = Some []) ∧
     ∀ line, line ∈ stdout → startswith "[*] Estimated" line = false).
Proof.
  split.
  - split.
    + intros [stdout Hr]. by apply print_clusters_Returned in Hr as [? _].
    + intros Hne. eexists. by apply print_clusters_Returned.
  - intros stdout Hi. split.
    + destruct (decide (∃ l grp, clustered !! l = Some grp ∧ l ≠ (-1)%Z ∧ grp = []))
        as [(l & grp & ? & ? & ->)|Hno]; [eauto|].
      assert (∃ out, print_clusters H clustered = Returned out) as [out Hr]; [|congruence].
      eexists. apply print_clusters_Returned. split; [|done].
      intros l Hl Hm. apply Hno. eauto.
    + unfold print_clusters in Hi.
      destruct (print_groups _ _) as [out|out] eqn:Hp; [done|]. injection Hi as <-.
      apply print_groups_IndexError in Hp as [printed_items ->]. simpl.
      intros line (blk & Hline & Hblk)%elem_of_concat.
      apply list_elem_of_fmap in Hblk as ([cluster contents] & -> & _).
      by eapply not_summary_block.
Qed.

(** X13: when [print_clusters] returns it has written, for each item of
    the dictionary in the order of iteration, a header and one line per
    member, and then the line with the number of clusters: as many lines
    as there are groups and members, and one more. *)
Theorem print_clusters_output (H : HashOrder) (clustered : gmap Z (list string))
    (stdout : list string) :
  print_clusters H clustered = Returned stdout →
  stdout = concat ((λ item, block item.1 item.2) <$> dict_items H clustered)
           ++ [summary_line clustered] ∧
  length stdout = size clustered + length (concat (dict_items H clustered).*2) + 1.
Proof.
  intros [_ ->]%print_clusters_Returned. split; [done|].
  rewrite length_app, length_blocks, length_dict_items. simpl. lia.
Qed.

Lemma print_clusters_output_sample :
  print_clusters stdpp_order sample_groups =
    Returned ["[*] --- Outside any cluster ---"; "[+] zzzzzzzzzzzz";
              "[*] --- Cluster: foo1 ---"; "[+] foo1"; "[+] foo2"; "[+] foo3";
              "[*] Estimated number of clusters: 1"]%string ∧
  length ["[*] --- Outside any cluster ---"; "[+] zzzzzzzzzzzz";
          "[*] --- Cluster: foo1 ---"; "[+] foo1"; "[+] foo2"; "[+] foo3";
          "[*] Estimated number of clusters: 1"]%string =
    size sample_groups + length (concat (dict_items stdpp_order sample_groups).*2) + 1.
Proof.
  assert (print_clusters stdpp_order sample_groups =
    Returned ["[*] --- Outside any cluster ---"; "[+] zzzzzzzzzzzz";
              "[*] --- Cluster: foo1 ---"; "[+] foo1"; "[+] foo2"; "[+] foo3";
              "[*] Estimated number of clusters: 1"]%string) as Hrun.
  { vm_compute. reflexivity. }
  split; [exact Hrun|].
  exact (proj2 (print_clusters_output stdpp_order sample_groups _ Hrun)).
Defined.

(** ** From the corpus to the output *)

Lemma print_clusters_order_names H (labels : list Z) (names : list string) :
  length names ≤ length labels →
  ∃ stdout,
    print_clusters H (order_names labels names) = Returned stdout ∧
    member_lines stdout ≡ₚ (λ name, "[+] " +:+ name) <$> names ∧
    length stdout = size (order_names labels names) + length names + 1 ∧
    last stdout = Some (summary_line (order_names labels names)).
Proof.
  intros Hlen.
  destruct (print_clusters_returned H (order_names labels names)) as [stdout Hout].
  { intros l grp. apply order_names_nonempty. }
  exists stdout. split; [done|].
  apply print_clusters_Returned in Hout as [_ ->].
  assert (concat (dict_items H (order_names labels names)).*2 ≡ₚ names) as Hperm.
  { rewrite (dict_items_perm H). by apply concat_order_names. }
  split_and!.
  - unfold member_lines. rewrite filter_app.
    change (filter _ (concat ?bs)) with (member_lines (concat bs)).
    rewrite member_lines_blocks, Hperm.
    rewrite filter_cons, decide_False by done.
    by rewrite filter_nil, (right_id_L [] (++)).
  - rewrite length_app, length_blocks, length_dict_items, Hperm. simpl. lia.
  - apply last_snoc.
Qed.

(** X14: after a run of [clusternames], [print_clusters] lists every
    string of the corpus once, as a line "[+] " followed by the string:
    the member lines of the output are the corpus as a multiset; and the
    output has one line per group, one per string, and the last line. *)
Theorem clusternames_printed (L : Library) (H : HashOrder)
    (names : list string) (g : gmap Z (list string)) :
  clusternames L H names = inr g →
  ∃ stdout,
    print_clusters H g = Returned stdout ∧
    member_lines stdout ≡ₚ (λ name, "[+] " +:+ name) <$> names ∧
    length stdout = size g + length names + 1.
Proof.
  intros (labels & _ & Hlen & _ & ->)%clusternames_groups.
  destruct (print_clusters_order_names H labels names) as (stdout & ? & ? & ? & _); [lia|].
  eauto.
Qed.

Lemma clusternames_printed_sample :
  clusternames (stand_in false) stdpp_order sample = inr sample_groups ∧
  ∃ stdout,
    print_clusters stdpp_order sample_groups = Returned stdout ∧
    member_lines stdout ≡ₚ (λ name, "[+] " +:+ name) <$> sample ∧
    length stdout = size sample_groups + length sample + 1.
Proof.
  assert (clusternames (stand_in false) stdpp_order sample = inr sample_groups) as Hrun.
  { vm_compute. reflexivity. }
  split; [exact Hrun|].
  exact (clusternames_printed (stand_in false) stdpp_order sample sample_groups Hrun).
Defined.

(** X15: for every dictionary, the number [print_clusters] reports is the
    number of keys other than -1; it is never negative, also for the empty
    dictionary and for one that holds only the key -1. *)
Theorem n_clusters_keys (clustered : gmap Z (list string)) :
  n_clusters clustered = Z.of_nat (size (delete (-1)%Z clustered)) ∧
  (0 ≤ n_clusters clustered)%Z.
Proof.
  rewrite n_clusters_size_difference, <-dom_delete_L, size_dom. lia.
Qed.

Lemma group_of_replicate {A} (names : list A) (l0 l : Z) :
  group_of (replicate (length names) l0) names l = if decide (l0 = l) then names else [].
Proof.
  unfold group_of. induction names as [|x names IH]; simpl; [by case_decide|].
  rewrite filter_cons. simpl. rewrite ?fmap_cons.
  destruct (decide (l0 = l)); csimpl; by rewrite IH.
Qed.

Lemma order_names_replicate {A} (names : list A) (l0 : Z) :
  names ≠ [] → order_names (replicate (length names) l0) names = {[ l0 := names ]}.
Proof.
  intros Hne. apply map_eq. intros l.
  rewrite lookup_order_names, group_of_replicate.
  destruct (decide (l0 = l)) as [<-|Hl].
  - rewrite lookup_singleton_eq. by destruct names.
  - by rewrite lookup_singleton_ne.
Qed.

Lemma dict_items_singleton H (l : Z) (grp : list string) :
  dict_items H {[ l := grp ]} = [(l, grp)].
Proof.
  apply Permutation_singleton_r.
  by rewrite (dict_items_perm H), map_to_list_singleton.
Qed.

(** X16: when the clusterer marks every string as noise, the output is
    the heading for the strings outside any cluster, the corpus line by
    line in input order, and a count of 0. *)
Theorem print_all_noise (H : HashOrder) (names : list string) :
  names ≠ [] →
  order_names (replicate (length names) (-1)%Z) names = {[ (-1)%Z := names ]} ∧
  print_clusters H (order_names (replicate (length names) (-1)%Z) names) =
  Returned ("[*] --- Outside any cluster ---" ::
            ((λ name, "[+] " +:+ name) <$> names) ++
            ["[*] Estimated number of clusters: 0"]).
Proof.
  intros Hne. rewrite (order_names_replicate names (-1)%Z Hne). split; [done|].
  unfold print_clusters. rewrite dict_items_singleton. simpl.
  unfold n_clusters. rewrite map_size_singleton, dom_singleton_L.
  rewrite decide_True by set_solver. done.
Qed.

Lemma print_all_noise_example :
  order_names (replicate (length ["a"; "b"]%string) (-1)%Z) ["a"; "b"]%string =
    {[ (-1)%Z := ["a"; "b"]%string ]} ∧
  print_clusters stdpp_order
    (order_names (replicate (length ["a"; "b"]%string) (-1)%Z) ["a"; "b"]%string) =
  Returned ("[*] --- Outside any cluster ---" ::
            ((λ name, "[+] " +:+ name) <$> ["a"; "b"]%string) ++
            ["[*] Estimated number of clusters: 0"]).
Proof. apply (print_all_noise stdpp_order ["a"; "b"]%string). discriminate. Defined.

Lemma dict_items_empty H : dict_items H ∅ = [].
Proof.
  apply Permutation_nil_r. by rewrite (dict_items_perm H), map_to_list_empty.
Qed.

(** X17: on the empty corpus the library is handed a matrix without rows;
    if its three calls return, [clusternames] gives the empty dictionary
    and [print_clusters] writes only the line with a count of 0. *)
Theorem empty_corpus_run (L : Library) (H : HashOrder) (g : gmap Z (list string)) :
  clusternames L H [] = inr g →
  feature_matrix H [] = [] ∧
  cluster_labels L H [] = inr [] ∧
  g = ∅ ∧
  print_clusters H g = Returned ["[*] Estimated number of clusters: 0"%string].
Proof.
  intros (labels & Hlabels & Hlen & _ & ->)%clusternames_groups.
  destruct labels; [|done].
  split_and!; [done..|].
  unfold print_clusters, order_names. simpl. by rewrite dict_items_empty.
Qed.

Lemma empty_corpus_run_lenient :
  clusternames (stand_in false) stdpp_order [] = inr ∅ ∧
  feature_matrix stdpp_order [] = [] ∧
  cluster_labels (stand_in false) stdpp_order [] = inr [] ∧
  (∅ : gmap Z (list string)) = ∅ ∧
  print_clusters stdpp_order ∅ = Returned ["[*] Estimated number of clusters: 0"%string].
Proof.
  assert (clusternames (stand_in false) stdpp_order [] = inr ∅) as Hrun.
  { vm_compute. reflexivity. }
  split; [exact Hrun|].
  exact (empty_corpus_run (stand_in false) stdpp_order ∅ Hrun).
Defined.

(** ** The command line, continued *)

(** X18: [main] ends in one of two ways.  Either [clusternames], run on
    the stripped lines, ends in an exception, and then so does [main],
    with nothing written; or [main] returns from [print_clusters] without
    an [IndexError], having listed every stripped line once as a member
    and the count in the last line. *)
Theorem main_outcome (L : Library) (H : HashOrder) (lines : list string) :
  (∀ e, main L H lines = inl e ↔ clusternames L H (strip <$> lines) = inl e) ∧
  (∀ out, main L H lines = inr out →
     ∃ g stdout,
       clusternames L H (strip <$> lines) = inr g ∧
       out = Returned stdout ∧
       member_lines stdout ≡ₚ (λ line, "[+] " +:+ strip line) <$> lines ∧
       last stdout = Some (summary_line g)).
Proof.
  unfold main, mbind, raise_bind.
  destruct (clusternames L H (strip <$> lines)) as [e'|g] eqn:Hg.
  - split; [intros e; split; by intros [= <-] | done].
  - split; [done|]. intros out [= <-].
    apply clusternames_groups in Hg as (labels & _ & Hlen & _ & ->).
    destruct (print_clusters_order_names H labels (strip <$> lines))
      as (stdout & Hout & Hmem & _ & Hlast); [lia|].
    exists (order_names labels (strip <$> lines)), stdout.
    split_and!; [done..| |done].
    by rewrite Hmem, <-list_fmap_compose.
Qed.
